(** * Quantum Inspire SDK: the credentials module

    A shallow embedding of [src/quantuminspire/credentials.py] and of the
    parts of the Python runtime it calls ([os.environ], [os.path],
    [os.makedirs], [open], [json], [warnings]), followed by the properties
    of the credential store.

    Python values are modelled as data, the process state (environment
    variables, file system, emitted warnings) as a record that every
    function threads through, and exceptions as an explicit result. *)

From Stdlib Require Import ZArith NArith Ascii String List Lia Bool Wf_nat.
From stdpp Require Import base option list gmap.

Set Warnings "-register-all".
Local Open Scope N_scope.

(** ** Python strings *)

(** A Python [str] is a sequence of Unicode code points. *)
Abbreviation pystr := (list N).

Definition chr (a : ascii) : N := N_of_ascii a.

(** [str "abc"] is the Python literal ['abc']. *)
Definition str (s : string) : pystr := map N_of_ascii (list_ascii_of_string s).

Definition pystr_eqb (a b : pystr) : bool := bool_decide (a = b).

(** Unicode scalar values: every code point except the surrogates
    U+D800..U+DFFF. A text is a [str] made of scalar values, which is what
    UTF-8 can carry. *)
Definition is_surrogate (c : N) : bool := (0xD800 <=? c) && (c <=? 0xDFFF).
Definition is_high_surrogate (c : N) : bool := (0xD800 <=? c) && (c <=? 0xDBFF).
Definition is_low_surrogate (c : N) : bool := (0xDC00 <=? c) && (c <=? 0xDFFF).

Definition scalar (c : N) : Prop := c <= 0x10FFFF ∧ is_surrogate c = false.
Definition is_text (s : pystr) : Prop := Forall scalar s.

Definition has_nul (s : pystr) : bool := existsb (N.eqb 0) s.

(** ** Python values *)

(** A float literal is kept as the decimal it was read from:
    [FDec neg m e] is the double nearest to [(-1)^neg * m * 10^e]. *)
Inductive pyfloat : Type :=
| FNaN
| FInf (neg : bool)
| FDec (neg : bool) (m : N) (e : Z).

(** The values [json.load] can produce. A [dict] keeps its keys in
    insertion order, each key once. *)
Inductive pyval : Type :=
| VNone
| VBool (b : bool)
| VInt (z : Z)
| VFloat (f : pyfloat)
| VStr (s : pystr)
| VList (l : list pyval)
| VDict (d : list (pystr * pyval)).

(** A decimal rounds to the double [0.0] exactly when it is at most
    [2^-1075], half of the smallest subnormal. *)
Definition float_is_zero (f : pyfloat) : bool :=
  match f with
  | FNaN | FInf _ => false
  | FDec _ m e =>
      (m =? 0) ||
      (if (e <? 0)%Z then m * 2 ^ 1075 <=? 10 ^ Z.to_N (- e) else false)
  end.

(** Truth value testing, [bool(v)]. *)
Definition truthy (v : pyval) : bool :=
  match v with
  | VNone => false
  | VBool b => b
  | VInt z => negb (z =? 0)%Z
  | VFloat f => negb (float_is_zero f)
  | VStr s => negb (bool_decide (s = []))
  | VList l => match l with [] => false | _ => true end
  | VDict d => match d with [] => false | _ => true end
  end.

(** [d[k] = v] on a dict. *)
Fixpoint dict_setitem (d : list (pystr * pyval)) (k : pystr) (v : pyval)
  : list (pystr * pyval) :=
  match d with
  | [] => [(k, v)]
  | (k', v') :: d' =>
      if pystr_eqb k' k then (k', v) :: d' else (k', v') :: dict_setitem d' k v
  end.

Fixpoint dict_get (d : list (pystr * pyval)) (k : pystr) : option pyval :=
  match d with
  | [] => None
  | (k', v') :: d' => if pystr_eqb k' k then Some v' else dict_get d' k
  end.

(** ** Exceptions *)

Inductive exn : Type :=
| FileNotFoundError
| FileExistsError
| IsADirectoryError
| PermissionError
| UnicodeDecodeError
| UnicodeEncodeError
| JSONDecodeError
| ValueError
| KeyError
| TypeError.

(** The class hierarchy, as far as [except] clauses look at it. *)
Definition is_OSError (e : exn) : bool :=
  match e with
  | FileNotFoundError | FileExistsError | IsADirectoryError | PermissionError => true
  | _ => false
  end.

Definition is_ValueError (e : exn) : bool :=
  match e with
  | UnicodeDecodeError | UnicodeEncodeError | JSONDecodeError | ValueError => true
  | _ => false
  end.

Definition is_KeyError (e : exn) : bool :=
  match e with KeyError => true | _ => false end.

(** ** The process state *)

(** What a path names: a directory, an entry that cannot be opened, or a
    regular file. The bytes of a file either decode to a text or do not. *)
Inductive content : Type :=
| Undecodable
| Decoded (s : pystr).

Inductive node : Type :=
| Dir
| Locked
| File (c : content).

Record world : Type := World {
  environ : gmap pystr pystr;
  fs : gmap pystr node;
  warnings : list pystr
}.

Inductive result (A : Type) : Type :=
| Ret (a : A)
| Raise (e : exn).
Arguments Ret {A} a.
Arguments Raise {A} e.

(** A Python computation: it runs in a state, returns or raises, and leaves
    a state. *)
Definition M (A : Type) : Type := world → result A * world.

#[global] Instance M_ret : MRet M := λ A a w, (Ret a, w).

#[global] Instance M_bind : MBind M := λ A B f m w,
  match m w with
  | (Ret a, w') => f a w'
  | (Raise e, w') => (Raise e, w')
  end.

Definition raise {A} (e : exn) : M A := λ w, (Raise e, w).

(** [try: body  except (classes): handler] *)
Definition try_except {A} (body : M A) (caught : exn → bool) (handler : M A) : M A :=
  λ w, match body w with
       | (Ret a, w') => (Ret a, w')
       | (Raise e, w') => if caught e then handler w' else (Raise e, w')
       end.


(** ** [os.path] (posixpath) *)

Definition sep : N := chr "/".

(** [p[:p.rfind('/') + 1]]: the prefix of [p] up to and including its last
    separator, empty when there is none. *)
Fixpoint upto_last_sep (p : pystr) : option pystr :=
  match p with
  | [] => None
  | c :: r =>
      match upto_last_sep r with
      | Some h => Some (c :: h)
      | None => if c =? sep then Some [c] else None
      end
  end.

(** [s.rstrip('/')] *)
Fixpoint rstrip_sep (s : pystr) : pystr :=
  match s with
  | [] => []
  | c :: r =>
      match rstrip_sep r with
      | [] => if c =? sep then [] else [c]
      | r' => c :: r'
      end
  end.

(** [os.path.dirname]: the head is stripped of trailing separators unless it
    consists of separators only. *)
Definition dirname (p : pystr) : pystr :=
  let head := default [] (upto_last_sep p) in
  if negb (bool_decide (head = [])) && negb (forallb (N.eqb sep) head)
  then rstrip_sep head
  else head.

(** One step of [os.path.join]: an absolute component replaces the path, any
    other is appended after a separator. *)
Definition startswith_sep (b : pystr) : bool :=
  match b with c :: _ => c =? sep | [] => false end.

Definition endswith_sep (p : pystr) : bool :=
  match last p with Some c => c =? sep | None => false end.

Definition join2 (path b : pystr) : pystr :=
  if startswith_sep b then b
  else if bool_decide (path = []) || endswith_sep path then path ++ b
  else path ++ sep :: b.

Definition path_join (a : pystr) (ps : list pystr) : pystr := fold_left join2 ps a.

(** ** [os.environ] *)

(** [os.environ.get(key, None)] *)
Definition environ_get (key : pystr) : M (option pystr) :=
  λ w, (Ret (environ w !! key), w).

(** [os.environ[key] = value]: the value is handed to the operating system
    as bytes, which refuses an embedded NUL and cannot encode a surrogate. *)
Definition environ_setitem (key value : pystr) : M unit :=
  if has_nul key || has_nul value then raise ValueError
  else if existsb is_surrogate key || existsb is_surrogate value
  then raise UnicodeEncodeError
  else λ w, (Ret tt, World (<[key := value]> (environ w)) (fs w) (warnings w)).

(** ** [warnings] *)

(** [warnings.warn(message)] under the default filter: the warning is
    reported and execution goes on. *)
Definition warn (message : pystr) : M unit :=
  λ w, (Ret tt, World (environ w) (fs w) (warnings w ++ [message])).

(** ** Files *)

(** [os.makedirs(name, exist_ok=True)]. Paths are taken as they are written:
    two spellings of one location are two keys of the file system. *)
Definition makedirs (name : pystr) : M unit :=
  if has_nul name then raise ValueError
  else if bool_decide (name = []) then raise FileNotFoundError
  else λ w,
    match fs w !! name with
    | None => (Ret tt, World (environ w) (<[name := Dir]> (fs w)) (warnings w))
    | Some Dir => (Ret tt, w)
    | Some _ => (Raise FileExistsError, w)
    end.

(** [open(filename, 'r')]: the handle gives access to the content. *)
Definition open_r (filename : pystr) : M content :=
  if has_nul filename then raise ValueError
  else λ w,
    match fs w !! filename with
    | None => (Raise FileNotFoundError, w)
    | Some Dir => (Raise IsADirectoryError, w)
    | Some Locked => (Raise PermissionError, w)
    | Some (File c) => (Ret c, w)
    end.

(** [file.read()] of a handle opened in text mode. *)
Definition file_read (c : content) : M pystr :=
  match c with
  | Undecodable => raise UnicodeDecodeError
  | Decoded s => mret s
  end.

Definition parent_exists (f : gmap pystr node) (filename : pystr) : bool :=
  match dirname filename with
  | [] => true
  | d => match f !! d with Some Dir => true | _ => false end
  end.

(** [open(filename, 'w')]: creates or truncates the file; the directory it
    lies in must exist (an empty directory part is the working directory).
    The handle is the path. *)
Definition open_w (filename : pystr) : M pystr :=
  if has_nul filename then raise ValueError
  else λ w,
    if parent_exists (fs w) filename then
      match fs w !! filename with
      | Some Dir => (Raise IsADirectoryError, w)
      | Some Locked => (Raise PermissionError, w)
      | _ => (Ret filename,
              World (environ w) (<[filename := File (Decoded [])]> (fs w)) (warnings w))
      end
    else (Raise FileNotFoundError, w).

(** [file.write(text)] on a handle opened for writing. *)
Definition file_write (handle : pystr) (text : pystr) : M unit :=
  λ w,
    match fs w !! handle with
    | Some (File (Decoded old)) =>
        (Ret tt, World (environ w) (<[handle := File (Decoded (old ++ text))]> (fs w))
                       (warnings w))
    | _ => (Raise ValueError, w)
    end.

(** ** [json]: encoding *)

(** A lower-case hexadecimal digit. *)
Definition hexdigit (d : N) : N :=
  if d <? 10 then chr "0" + d else chr "a" + (d - 10).

(** ['{0:04x}'.format(n)] for [n < 0x10000] *)
Definition hex4 (n : N) : pystr :=
  [hexdigit ((n / 4096) mod 16); hexdigit ((n / 256) mod 16);
   hexdigit ((n / 16) mod 16); hexdigit (n mod 16)].

Definition backslash : N := chr "\".
Definition quote : N := 34.

(** The replacement of one character by [encode_basestring_ascii]: the
    printable ASCII characters other than the quote and the backslash stand
    for themselves, seven characters have a short escape, the others are
    written [\uXXXX], as a surrogate pair above U+FFFF. *)
Definition escape_char (c : N) : pystr :=
  if (chr " " <=? c) && (c <=? chr "~") && negb (c =? backslash) && negb (c =? quote)
  then [c]
  else if c =? backslash then [backslash; backslash]
  else if c =? quote then [backslash; quote]
  else if c =? 8 then [backslash; chr "b"]
  else if c =? 12 then [backslash; chr "f"]
  else if c =? 10 then [backslash; chr "n"]
  else if c =? 13 then [backslash; chr "r"]
  else if c =? 9 then [backslash; chr "t"]
  else if c <? 0x10000 then backslash :: chr "u" :: hex4 c
  else
    let n := c - 0x10000 in
    let s1 := N.lor 0xd800 (N.land (N.shiftr n 10) 0x3ff) in
    let s2 := N.lor 0xdc00 (N.land n 0x3ff) in
    (backslash :: chr "u" :: hex4 s1) ++ (backslash :: chr "u" :: hex4 s2).

Definition escape_chars (s : pystr) : pystr := concat (map escape_char s).

(** [encode_basestring_ascii(s)] *)
Definition encode_basestring_ascii (s : pystr) : pystr :=
  quote :: escape_chars s ++ [quote].

(** The items of a dict of strings, each on its own line at one level of
    indentation, separated by [','] and the line break. *)
Fixpoint dumps_items (newline_indent : pystr) (items : list (pystr * pystr)) : pystr :=
  match items with
  | [] => []
  | [(k, v)] =>
      encode_basestring_ascii k ++ str ": " ++ encode_basestring_ascii v
  | (k, v) :: rest =>
      encode_basestring_ascii k ++ str ": " ++ encode_basestring_ascii v
        ++ chr "," :: newline_indent ++ dumps_items newline_indent rest
  end.

(** [json.dumps(d, indent=2)] for a dict [d] from strings to strings. *)
Definition json_dumps_indent2 (d : list (pystr * pystr)) : pystr :=
  match d with
  | [] => str "{}"
  | _ => chr "{" :: (10 :: str "  ") ++ dumps_items (10 :: str "  ") d ++ [10; chr "}"]
  end.

(** [json.dump(d, fp, indent=2)] *)
Definition json_dump (d : list (pystr * pystr)) (fp : pystr) : M unit :=
  file_write fp (json_dumps_indent2 d).

(** ** [json]: decoding *)

Definition hexval (c : N) : option N :=
  if (chr "0" <=? c) && (c <=? chr "9") then Some (c - chr "0")
  else if (chr "a" <=? c) && (c <=? chr "f") then Some (c - chr "a" + 10)
  else if (chr "A" <=? c) && (c <=? chr "F") then Some (c - chr "A" + 10)
  else None.

(** The four hexadecimal digits of a [\uXXXX] escape. *)
Definition decode_uXXXX (h1 h2 h3 h4 : N) : option N :=
  match hexval h1, hexval h2, hexval h3, hexval h4 with
  | Some a, Some b, Some c, Some d => Some (a * 4096 + b * 256 + c * 16 + d)
  | _, _, _, _ => None
  end.

(** The one-letter escapes. *)
Definition unescape (e : N) : option N :=
  if e =? quote then Some quote
  else if e =? backslash then Some backslash
  else if e =? chr "/" then Some (chr "/")
  else if e =? chr "b" then Some 8
  else if e =? chr "f" then Some 12
  else if e =? chr "n" then Some 10
  else if e =? chr "r" then Some 13
  else if e =? chr "t" then Some 9
  else None.

Definition join_surrogates (hi lo : N) : N :=
  0x10000 + N.lor (N.shiftl (hi - 0xd800) 10) (lo - 0xdc00).

Definition push (c : N) (r : option (pystr * pystr)) : option (pystr * pystr) :=
  match r with
  | Some (s, rest) => Some (c :: s, rest)
  | None => None
  end.

(** [scanstring(s, end, strict=True)], entered after the opening quote: the
    decoded string and the input after the closing quote, or nothing when
    the string is malformed. *)
Fixpoint scanstring (s : pystr) : option (pystr * pystr) :=
  match s with
  | [] => None
  | c :: r =>
      if c =? quote then Some ([], r)
      else if c =? backslash then
        match r with
        | [] => None
        | e :: r1 =>
            if e =? chr "u" then
              match r1 with
              | h1 :: h2 :: h3 :: h4 :: r2 =>
                  match decode_uXXXX h1 h2 h3 h4 with
                  | None => None
                  | Some uni =>
                      if is_high_surrogate uni then
                        match r2 with
                        | b :: u :: g1 :: g2 :: g3 :: g4 :: r3 =>
                            if (b =? backslash) && (u =? chr "u") then
                              match decode_uXXXX g1 g2 g3 g4 with
                              | None => None
                              | Some uni2 =>
                                  if is_low_surrogate uni2
                                  then push (join_surrogates uni uni2) (scanstring r3)
                                  else push uni (scanstring r2)
                              end
                            else push uni (scanstring r2)
                        | _ => push uni (scanstring r2)
                        end
                      else push uni (scanstring r2)
                  end
              | _ => None
              end
            else
              match unescape e with
              | Some ch => push ch (scanstring r1)
              | None => None
              end
        end
      else if c <=? 0x1f then None
      else push c (scanstring r)
  end.

Definition is_whitespace (c : N) : bool :=
  (c =? chr " ") || (c =? 9) || (c =? 10) || (c =? 13).

Fixpoint skip_ws (s : pystr) : pystr :=
  match s with
  | c :: r => if is_whitespace c then skip_ws r else s
  | [] => []
  end.

Definition is_digit (c : N) : bool := (chr "0" <=? c) && (c <=? chr "9").

Fixpoint take_digits (s : pystr) : pystr * pystr :=
  match s with
  | c :: r =>
      if is_digit c then let '(d, rest) := take_digits r in (c :: d, rest)
      else ([], s)
  | [] => ([], [])
  end.

Definition digits_value (d : pystr) : N :=
  fold_left (λ acc c, acc * 10 + (c - chr "0")) d 0.

(** [s[len(prefix):]] when [s.startswith(prefix)] *)
Fixpoint strip_prefix (prefix s : pystr) : option pystr :=
  match prefix, s with
  | [], _ => Some s
  | p :: prefix', c :: s' => if p =? c then strip_prefix prefix' s' else None
  | _ :: _, [] => None
  end.

(** The integer part of a number: a single [0], or a non-zero digit and the
    digits after it. *)
Definition match_integer (s : pystr) : option (pystr * pystr) :=
  match s with
  | c :: r =>
      if c =? chr "0" then Some ([c], r)
      else if is_digit c then Some (take_digits s)
      else None
  | [] => None
  end.

(** A fraction is read when the point is followed by a digit. *)
Definition match_fraction (s : pystr) : option (pystr * pystr) :=
  match s with
  | p :: d :: _ =>
      if (p =? chr ".") && is_digit d then Some (take_digits (tail s)) else None
  | _ => None
  end.

(** An exponent is read when it has at least one digit; the scanner backs
    up otherwise. *)
Definition match_exponent (s : pystr) : option (Z * pystr) :=
  match s with
  | e :: r =>
      if (e =? chr "e") || (e =? chr "E") then
        let '(neg, r1) :=
          match r with
          | sg :: ((_ :: _) as r') =>
              if sg =? chr "-" then (true, r')
              else if sg =? chr "+" then (false, r')
              else (false, r)
          | _ => (false, r)
          end in
        match take_digits r1 with
        | ([], _) => None
        | (ds, rest) =>
            let v := Z.of_N (digits_value ds) in
            Some (if neg then (- v)%Z else v, rest)
        end
      else None
  | [] => None
  end.

(** The number at the head of the input: an [int] when it has neither
    fraction nor exponent, a [float] otherwise. *)
Definition match_number (s : pystr) : option (pyval * pystr) :=
  let '(neg, s1) :=
    match s with
    | c :: r => if c =? chr "-" then (true, r) else (false, s)
    | [] => (false, s)
    end in
  match match_integer s1 with
  | None => None
  | Some (int, s2) =>
      let '(frac, s3) :=
        match match_fraction s2 with
        | Some (f, s3) => (Some f, s3)
        | None => (None, s2)
        end in
      let '(exp, s4) :=
        match match_exponent s3 with
        | Some (e, s4) => (Some e, s4)
        | None => (None, s3)
        end in
      match frac, exp with
      | None, None =>
          let v := Z.of_N (digits_value int) in
          Some (VInt (if neg then (- v)%Z else v), s4)
      | _, _ =>
          let f := default [] frac in
          Some (VFloat (FDec neg (digits_value (int ++ f))
                             (default 0%Z exp - Z.of_nat (length f))), s4)
      end
  end.

(** The constants, tried before a number is. *)
Definition match_constant (s : pystr) : option (pyval * pystr) :=
  match strip_prefix (str "null") s with Some r => Some (VNone, r) | None =>
  match strip_prefix (str "true") s with Some r => Some (VBool true, r) | None =>
  match strip_prefix (str "false") s with Some r => Some (VBool false, r) | None =>
  match strip_prefix (str "NaN") s with Some r => Some (VFloat FNaN, r) | None =>
  match strip_prefix (str "Infinity") s with Some r => Some (VFloat (FInf false), r) | None =>
  match strip_prefix (str "-Infinity") s with Some r => Some (VFloat (FInf true), r) | None =>
  None end end end end end end.

Inductive parsed : Type :=
| Invalid
| OutOfFuel
| Parsed (v : pyval) (rest : pystr).

Definition of_option (o : option (pyval * pystr)) : parsed :=
  match o with
  | Some (v, rest) => Parsed v rest
  | None => Invalid
  end.

(** [scan_once]: one JSON value at the head of the input. [parse_members]
    and [parse_elements] are the loops over the members of an object and the
    elements of an array, entered after the opening bracket and the
    whitespace behind it, when the container is not empty. *)
Fixpoint scan_once (fuel : nat) (s : pystr) : parsed :=
  match fuel with
  | O => OutOfFuel
  | S n =>
      match s with
      | [] => Invalid
      | c :: r =>
          if c =? quote then
            match scanstring r with
            | Some (v, rest) => Parsed (VStr v) rest
            | None => Invalid
            end
          else if c =? chr "{" then
            match skip_ws r with
            | c' :: r' =>
                if c' =? chr "}" then Parsed (VDict []) r'
                else parse_members n [] (c' :: r')
            | [] => Invalid
            end
          else if c =? chr "[" then
            match skip_ws r with
            | c' :: r' =>
                if c' =? chr "]" then Parsed (VList []) r'
                else parse_elements n [] (c' :: r')
            | [] => Invalid
            end
          else
            match match_constant s with
            | Some (v, rest) => Parsed v rest
            | None => of_option (match_number s)
            end
      end
  end
with parse_members (fuel : nat) (acc : list (pystr * pyval)) (s : pystr) : parsed :=
  match fuel with
  | O => OutOfFuel
  | S n =>
      match s with
      | [] => Invalid
      | c :: r =>
          if c =? quote then
            match scanstring r with
            | None => Invalid
            | Some (key, r1) =>
                match skip_ws r1 with
                | [] => Invalid
                | c1 :: r2 =>
                    if c1 =? chr ":" then
                      match scan_once n (skip_ws r2) with
                      | Parsed v r3 =>
                          let acc' := dict_setitem acc key v in
                          match skip_ws r3 with
                          | [] => Invalid
                          | c3 :: r4 =>
                              if c3 =? chr "}" then Parsed (VDict acc') r4
                              else if c3 =? chr "," then parse_members n acc' (skip_ws r4)
                              else Invalid
                          end
                      | failed => failed
                      end
                    else Invalid
                end
            end
          else Invalid
      end
  end
with parse_elements (fuel : nat) (acc : list pyval) (s : pystr) : parsed :=
  match fuel with
  | O => OutOfFuel
  | S n =>
      match scan_once n s with
      | Parsed v r1 =>
          let acc' := acc ++ [v] in
          match skip_ws r1 with
          | [] => Invalid
          | c :: r2 =>
              if c =? chr "]" then Parsed (VList acc') r2
              else if c =? chr "," then parse_elements n acc' (skip_ws r2)
              else Invalid
          end
      | failed => failed
      end
  end.

(** Enough fuel for any input: a nested call costs at most two units for
    each character read. *)
Definition fuel_for (s : pystr) : nat := 2 * length s + 2.

Definition startswith_bom (s : pystr) : bool :=
  match s with c :: _ => c =? 0xFEFF | [] => false end.

(** [json.loads(s)]: a byte order mark is refused, one value is read between
    optional whitespace, and nothing may follow it. *)
Definition json_loads (s : pystr) : result pyval :=
  if startswith_bom s then Raise JSONDecodeError
  else
    match scan_once (fuel_for s) (skip_ws s) with
    | Parsed v rest =>
        match skip_ws rest with
        | [] => Ret v
        | _ => Raise JSONDecodeError
        end
    | _ => Raise JSONDecodeError
    end.

(** [json.load(fp)] is [json.loads(fp.read())]. *)
Definition json_load (fp : content) : M pyval :=
  s ← file_read fp;
  match json_loads s with
  | Ret v => mret v
  | Raise e => raise e
  end.

(** ** Operations on values *)

(** [obj[key]] for a string key: only a dict can be indexed by a string. *)
Definition getitem (obj : pyval) (key : pystr) : M pyval :=
  match obj with
  | VDict d =>
      match dict_get d key with
      | Some v => mret v
      | None => raise KeyError
      end
  | _ => raise TypeError
  end.

(** [len(v)] *)
Definition len (v : pyval) : M nat :=
  match v with
  | VStr s => mret (length s)
  | VList l => mret (length l)
  | VDict d => mret (length d)
  | _ => raise TypeError
  end.

(** [v == t] for a string [t]: a value of another type is never equal to a
    string. *)
Definition eq_str (v : pyval) (t : pystr) : bool :=
  match v with
  | VStr s => pystr_eqb s t
  | _ => false
  end.

(** ** [coreapi.auth] *)

(** Modelled from the spec: the authentication descriptors of [coreapi],
    which is not part of the sources. A token descriptor carries the token
    and is tagged with a scheme; a basic descriptor carries an email address
    and a password. Both constructors keep their arguments as given. *)
Record TokenAuthentication : Type := mkTokenAuthentication {
  auth_token : pyval;
  auth_scheme : pystr
}.

Record BasicAuthentication : Type := mkBasicAuthentication {
  auth_email : pystr;
  auth_password : pystr
}.

(** ** The credentials module *)

Section credentials.

(** [os.path.expanduser("~")], read once when the module is loaded. *)
Context (home : pystr).

Definition DEFAULT_QIRC_FILE : pystr :=
  path_join home [str ".quantuminspire"; str "qirc"].

(** The functions take [filename] explicitly; leaving it out in Python is
    passing [DEFAULT_QIRC_FILE]. *)

Definition read_account (filename : pystr) : M pyval :=
  token ← try_except
    (file ← open_r filename;
     accounts ← json_load file;
     getitem accounts (str "token"))
    (λ e, is_OSError e || is_KeyError e || is_ValueError e)
    (mret VNone);
  if truthy token then
    n ← len token;
    if negb (Nat.eqb n 0) then mret token else mret VNone
  else mret VNone.

Definition load_account (filename : pystr) : M pyval :=
  env ← environ_get (str "QI_TOKEN");
  match env with
  | Some t => if truthy (VStr t) then mret (VStr t) else read_account filename
  | None => read_account filename
  end.

Definition save_account (token : pystr) (filename : pystr) : M unit :=
  let accounts := [(str "token", token)] in
  makedirs (dirname filename);;
  config_file ← open_w filename;
  json_dump accounts config_file.

Definition store_account (token : pystr) (filename : pystr) (overwrite : bool) : M unit :=
  stored_token ← read_account filename;
  if truthy stored_token && negb (eq_str stored_token token) && negb overwrite then
    warn (str "Token already present. Set overwrite=True to overwrite.")
  else save_account token filename.

Definition delete_account (token : pystr) (filename : pystr) : M unit :=
  stored_token ← read_account filename;
  if eq_str stored_token token then save_account [] filename else mret tt.

Definition enable_account (token : pystr) : M unit :=
  environ_setitem (str "QI_TOKEN") token.

(** [token] is [VNone] when the argument is left out. *)
Definition get_token_authentication (token : pyval) : M TokenAuthentication :=
  token' ← (if negb (truthy token) then load_account DEFAULT_QIRC_FILE else mret token);
  mret (mkTokenAuthentication token' (str "token")).

Definition get_basic_authentication (email password : pystr) : M BasicAuthentication :=
  mret (mkBasicAuthentication email password).

End credentials.

(** ** Vocabulary of the properties *)

(** The surrogate pair [escape_char] writes for a code point above U+FFFF. *)
Definition high_of (c : N) : N :=
  N.lor 0xd800 (N.land (N.shiftr (c - 0x10000) 10) 0x3ff).
Definition low_of (c : N) : N :=
  N.lor 0xdc00 (N.land (c - 0x10000) 0x3ff).

(** A decidable form of [is_text], for concrete strings. *)
Definition is_textb (s : pystr) : bool :=
  forallb (λ c, (c <=? 0x10FFFF) && negb (is_surrogate c)) s.

(** A parse result leaves less input than it was given. *)
Definition shrinks (res : parsed) (s : pystr) : Prop :=
  match res with
  | Parsed _ r => (length r < length s)%nat
  | _ => True
  end.

(** A credential file up to the opening quote of the token. *)
Definition token_prefix : pystr :=
  [chr "{"; 10; chr " "; chr " "; quote] ++ str "token"
    ++ [quote; chr ":"; chr " "; quote].

(** The text [save_account] writes for a token. *)
Definition credential_text (T : pystr) : pystr :=
  json_dumps_indent2 [(str "token", T)].

(** The file at [p] holds the token [T]: it is a readable JSON object whose
    [token] field is the string [T]. *)
Definition file_holds (w : world) (p T : pystr) : Prop :=
  has_nul p = false ∧
  ∃ text d, fs w !! p = Some (File (Decoded text)) ∧
            json_loads text = Ret (VDict d) ∧
            dict_get d (str "token") = Some (VStr T).

(** The file states in which no token is stored: no file, a file that cannot
    be opened or decoded, a text that is not JSON, a JSON object without a
    [token] field, and a JSON object whose [token] is the empty string. *)
Inductive no_token (w : world) (p : pystr) : Prop :=
| nt_missing : fs w !! p = None → no_token w p
| nt_directory : fs w !! p = Some Dir → no_token w p
| nt_locked : fs w !! p = Some Locked → no_token w p
| nt_undecodable : fs w !! p = Some (File Undecodable) → no_token w p
| nt_invalid_json s e :
    fs w !! p = Some (File (Decoded s)) → json_loads s = Raise e → no_token w p
| nt_no_field s d :
    fs w !! p = Some (File (Decoded s)) → json_loads s = Ret (VDict d) →
    dict_get d (str "token") = None → no_token w p
| nt_empty s d :
    fs w !! p = Some (File (Decoded s)) → json_loads s = Ret (VDict d) →
    dict_get d (str "token") = Some (VStr []) → no_token w p.

(** The path can be written by [save_account]: its directory part is not
    empty and is free or a directory, and the path itself is not a directory
    or a locked entry. *)
Definition can_save (w : world) (p : pystr) : bool :=
  negb (has_nul (dirname p)) && negb (has_nul p) &&
  negb (bool_decide (dirname p = [])) &&
  match fs w !! dirname p with None | Some Dir => true | Some _ => false end &&
  negb (bool_decide (p = dirname p)) &&
  match fs w !! p with Some Dir | Some Locked => false | _ => true end.

(** The state after a successful [save_account T p]. *)
Definition saved (w : world) (p T : pystr) : world :=
  World (environ w)
        (<[p := File (Decoded (credential_text T))]> (<[dirname p := Dir]> (fs w)))
        (warnings w).

Definition token_warning : pystr :=
  str "Token already present. Set overwrite=True to overwrite.".

(** The state after the overwrite warning. *)
Definition warned (w : world) : world :=
  World (environ w) (fs w) (warnings w ++ [token_warning]).

(** The environment accepts the token as the value of a variable. *)
Definition can_enable (T : pystr) : bool :=
  negb (has_nul T) && negb (existsb is_surrogate T).

(** Concrete states used in examples. *)
Definition qirc : pystr := str "/home/user/.quantuminspire/qirc".
Definition fresh : world := World ∅ ∅ [].
Definition array_file : world :=
  World ∅ {[ qirc := File (Decoded (str "[]")) ]} [].


(** The values [len] accepts. *)
Definition sized (v : pyval) : bool :=
  match v with VStr _ | VList _ | VDict _ => true | _ => false end.


(** The directory of the default resource file. *)
Definition config_dir (home : pystr) : pystr := join2 home (str ".quantuminspire").

(** A line feed or a printable ASCII character. *)
Definition printable (c : N) : Prop := c = 10 ∨ (32 <= c ∧ c <= 126).
Definition printableb (c : N) : bool := (c =? 10) || ((32 <=? c) && (c <=? 126)).

(** A credential file whose token is a list, and a file system in which the
    resource file is a directory. *)
Definition list_token_file : world :=
  World ∅ {[ qirc := File (Decoded (chr "{" :: quote :: str "token" ++ quote
                                      :: str ": [1]}")) ]} [].

(** * Properties *)

Ltac Zify.zify_post_hook ::= Z.to_euclidean_division_equations.

Ltac unfold_M :=
  unfold mbind, M_bind, mret, M_ret, raise, try_except in *.

Lemma is_textb_sound s : is_textb s = true → is_text s.
Proof.
  unfold is_textb, is_text. rewrite forallb_forall, Forall_forall.
  intros H c Hc. apply list_elem_of_In, H in Hc.
  apply andb_true_iff in Hc as [H1 H2]. split.
  - by apply N.leb_le.
  - by apply negb_true_iff.
Qed.

(** ** What is encoded is decoded *)

Section codec.

Lemma hexval_hexdigit d : d < 16 → hexval (hexdigit d) = Some d.
Proof.
  intros H. destruct d as [|p]; [reflexivity|].
  do 4 (destruct p as [p|p|]; try reflexivity); exfalso; lia.
Qed.

Lemma decode_hex4 n : n < 0x10000 →
  decode_uXXXX (hexdigit ((n / 4096) mod 16)) (hexdigit ((n / 256) mod 16))
               (hexdigit ((n / 16) mod 16)) (hexdigit (n mod 16)) = Some n.
Proof.
  intros H. unfold decode_uXXXX.
  rewrite !hexval_hexdigit by (apply N.mod_upper_bound; lia).
  f_equal. lia.
Qed.

(** Below a power of two, [lor] with a multiple of it is addition. *)
Lemma lor_low a b k : b < 2 ^ k → N.lor (a * 2 ^ k) b = a * 2 ^ k + b.
Proof.
  intros Hb. rewrite <- N.lxor_lor, <- N.add_nocarry_lxor; try reflexivity.
  all: apply N.bits_inj; intros m; rewrite N.land_spec, N.bits_0.
  all: destruct (N.lt_ge_cases m k) as [Hm|Hm].
  all: try (rewrite N.mul_pow2_bits_low by assumption; reflexivity).
  all: destruct (N.eq_dec b 0) as [->|Hnz];
    [rewrite N.bits_0; apply andb_false_r|].
  all: rewrite (N.bits_above_log2 b m), andb_false_r; [reflexivity|].
  all: apply N.log2_lt_pow2; [lia|].
  all: eapply N.lt_le_trans; [exact Hb|]; apply N.pow_le_mono_r; lia.
Qed.

Lemma high_of_eq c :
  0x10000 <= c → c <= 0x10FFFF → high_of c = 0xd800 + (c - 0x10000) / 1024.
Proof.
  intros H1 H2. unfold high_of.
  change 0x3ff with (N.ones 10). rewrite N.land_ones, N.shiftr_div_pow2.
  change (2 ^ 10) with 1024.
  change 0xd800 with (54 * 2 ^ 10). rewrite lor_low.
  - rewrite N.mod_small; [reflexivity|]. lia.
  - change (2 ^ 10) with 1024. lia.
Qed.

Lemma low_of_eq c : low_of c = 0xdc00 + (c - 0x10000) mod 1024.
Proof.
  unfold low_of. change 0x3ff with (N.ones 10). rewrite N.land_ones.
  change 0xdc00 with (55 * 2 ^ 10). rewrite lor_low; [reflexivity|].
  change (2 ^ 10) with 1024. lia.
Qed.

Lemma join_split c :
  0x10000 <= c → c <= 0x10FFFF → join_surrogates (high_of c) (low_of c) = c.
Proof.
  intros H1 H2. unfold join_surrogates.
  rewrite high_of_eq, low_of_eq by assumption.
  rewrite N.shiftl_mul_pow2, lor_low; change (2 ^ 10) with 1024; lia.
Qed.

(** One step of the scanner on a [\uXXXX] escape. *)
Lemma scanstring_u h1 h2 h3 h4 r2 :
  scanstring (backslash :: chr "u" :: h1 :: h2 :: h3 :: h4 :: r2) =
  match decode_uXXXX h1 h2 h3 h4 with
  | None => None
  | Some uni =>
      if is_high_surrogate uni then
        match r2 with
        | b :: u :: g1 :: g2 :: g3 :: g4 :: r3 =>
            if (b =? backslash) && (u =? chr "u") then
              match decode_uXXXX g1 g2 g3 g4 with
              | None => None
              | Some uni2 =>
                  if is_low_surrogate uni2
                  then push (join_surrogates uni uni2) (scanstring r3)
                  else push uni (scanstring r2)
              end
            else push uni (scanstring r2)
        | _ => push uni (scanstring r2)
        end
      else push uni (scanstring r2)
  end.
Proof. reflexivity. Qed.

Lemma scanstring_plain c s :
  (c =? quote) = false → (c =? backslash) = false → (c <=? 0x1f) = false →
  scanstring (c :: s) = push c (scanstring s).
Proof. intros H1 H2 H3. cbn [scanstring]. rewrite H1, H2, H3. reflexivity. Qed.

(** The scanner reads back what [escape_char] wrote for a scalar value. *)
Lemma scanstring_escape_char c s :
  scalar c → scanstring (escape_char c ++ s) = push c (scanstring s).
Proof.
  intros [Hmax Hsur]. unfold escape_char.
  destruct ((chr " " <=? c) && (c <=? chr "~") && negb (c =? backslash)
            && negb (c =? quote)) eqn:Hplain.
  { apply andb_prop in Hplain as [Hplain Hq].
    apply andb_prop in Hplain as [Hplain Hb].
    apply andb_prop in Hplain as [Hlo _].
    apply negb_true_iff in Hq, Hb. apply N.leb_le in Hlo.
    apply scanstring_plain; try assumption.
    apply N.leb_gt. change (chr " ") with 32 in Hlo. lia. }
  destruct (c =? backslash) eqn:E1; [apply N.eqb_eq in E1; subst c; reflexivity|].
  destruct (c =? quote) eqn:E2; [apply N.eqb_eq in E2; subst c; reflexivity|].
  destruct (c =? 8) eqn:E3; [apply N.eqb_eq in E3; subst c; reflexivity|].
  destruct (c =? 12) eqn:E4; [apply N.eqb_eq in E4; subst c; reflexivity|].
  destruct (c =? 10) eqn:E5; [apply N.eqb_eq in E5; subst c; reflexivity|].
  destruct (c =? 13) eqn:E6; [apply N.eqb_eq in E6; subst c; reflexivity|].
  destruct (c =? 9) eqn:E7; [apply N.eqb_eq in E7; subst c; reflexivity|].
  destruct (c <? 0x10000) eqn:Hbmp.
  - apply N.ltb_lt in Hbmp. cbn [hex4 app].
    rewrite scanstring_u, decode_hex4 by assumption.
    replace (is_high_surrogate c) with false; [reflexivity|].
    symmetry. unfold is_surrogate in Hsur. unfold is_high_surrogate.
    apply andb_false_iff in Hsur as [H|H]; apply N.leb_gt in H;
      apply andb_false_iff; [left|right]; apply N.leb_gt; lia.
  - apply N.ltb_ge in Hbmp. cbv zeta. fold (high_of c). fold (low_of c).
    assert (Hhi : high_of c = 0xd800 + (c - 0x10000) / 1024)
      by (apply high_of_eq; lia).
    assert (Hlo : low_of c = 0xdc00 + (c - 0x10000) mod 1024) by apply low_of_eq.
    cbn [hex4 app]. rewrite scanstring_u, decode_hex4 by lia.
    replace (is_high_surrogate (high_of c)) with true
      by (symmetry; apply andb_true_iff; split; apply N.leb_le; lia).
    change ((backslash =? backslash) && (chr "u" =? chr "u")) with true. cbv iota.
    rewrite decode_hex4 by lia.
    replace (is_low_surrogate (low_of c)) with true
      by (symmetry; apply andb_true_iff; split; apply N.leb_le; lia).
    rewrite join_split by lia. reflexivity.
Qed.

Lemma scanstring_escape_chars T rest :
  is_text T → scanstring (escape_chars T ++ quote :: rest) = Some (T, rest).
Proof.
  induction 1 as [|c T Hc HT IH]; [reflexivity|].
  unfold escape_chars in *. cbn [map concat]. rewrite <- app_assoc.
  rewrite scanstring_escape_char, IH by assumption. reflexivity.
Qed.

(** The credential file, character by character. *)
Lemma credential_text_eq T :
  credential_text T =
  token_prefix ++ escape_chars T ++ [quote; 10; chr "}"].
Proof.
  unfold credential_text, json_dumps_indent2, dumps_items, encode_basestring_ascii.
  change (escape_chars (str "token")) with (str "token").
  unfold token_prefix.
  cbn [app str map list_ascii_of_string]. rewrite <- !app_assoc. reflexivity.
Qed.

Lemma scan_once_string n body :
  scan_once (S n) (quote :: body) =
  match scanstring body with
  | Some (v, rest) => Parsed (VStr v) rest
  | None => Invalid
  end.
Proof. reflexivity. Qed.

(** An object that opens with the [token] member: the parser is left with
    the value of the member. *)
Lemma scan_once_token_member n body :
  scan_once (S (S (S n)))
    (token_prefix ++ body) =
  match scan_once (S n) (quote :: body) with
  | Parsed v rest =>
      match skip_ws rest with
      | [] => Invalid
      | c :: r =>
          if c =? chr "}" then Parsed (VDict [(str "token", v)]) r
          else if c =? chr ","
               then parse_members (S n) [(str "token", v)] (skip_ws r)
               else Invalid
      end
  | failed => failed
  end.
Proof. reflexivity. Qed.

Lemma scan_once_credential_text n T :
  is_text T →
  scan_once (S (S (S n))) (credential_text T)
  = Parsed (VDict [(str "token", VStr T)]) [].
Proof.
  intros HT. rewrite credential_text_eq, scan_once_token_member, scan_once_string.
  rewrite (scanstring_escape_chars T [10; chr "}"] HT). reflexivity.
Qed.

Lemma credential_text_head T : ∃ r, credential_text T = chr "{" :: r.
Proof. rewrite credential_text_eq. eexists. reflexivity. Qed.

(** [json.loads(json.dumps({'token': T}, indent=2))] is [{'token': T}]. *)
Lemma json_loads_credential_text T :
  is_text T → json_loads (credential_text T) = Ret (VDict [(str "token", VStr T)]).
Proof.
  intros HT. unfold json_loads.
  destruct (credential_text_head T) as [r Hr].
  assert (Hf : ∃ n, fuel_for (credential_text T) = S (S (S n))).
  { unfold fuel_for. rewrite Hr. cbn [length]. exists (2 * length r + 1)%nat. lia. }
  destruct Hf as [n Hn]. rewrite Hn.
  replace (startswith_bom (credential_text T)) with false
    by (rewrite Hr; reflexivity).
  replace (skip_ws (credential_text T)) with (credential_text T)
    by (rewrite Hr; reflexivity).
  rewrite scan_once_credential_text by assumption. reflexivity.
Qed.

Lemma json_loads_raises s e : json_loads s = Raise e → e = JSONDecodeError.
Proof.
  unfold json_loads. destruct (startswith_bom s); [congruence|].
  destruct (scan_once _ _) as [| |v rest]; try congruence.
  destruct (skip_ws rest); congruence.
Qed.

End codec.

(** ** The decoder always has enough fuel *)

Section fuel.

Ltac solve_push IH :=
  match goal with
  | H : push _ (scanstring ?t) = Some (_, _) |- _ =>
      let E := fresh "E" in
      destruct (scanstring t) as [[? ?]|] eqn:E; [|discriminate H];
      injection H as <- <-;
      apply IH in E; [cbn [length] in *; lia | unfold ltof; cbn [length]; lia]
  end.

Lemma scanstring_length s v r :
  scanstring s = Some (v, r) → (length r < length s)%nat.
Proof.
  revert v r. induction s as [s IH] using (induction_ltof1 _ (@length N)).
  intros v r H. destruct s as [|c s]; [discriminate|].
  cbn [scanstring] in H.
  destruct (c =? quote). { injection H as <- <-. cbn [length]. lia. }
  destruct (c =? backslash).
  2: { destruct (c <=? 31); [discriminate|]. solve_push IH. }
  destruct s as [|e r1]; [discriminate|].
  destruct (e =? chr "u").
  2: { destruct (unescape e); [|discriminate]. solve_push IH. }
  destruct r1 as [|h1 [|h2 [|h3 [|h4 r2]]]]; try discriminate.
  destruct (decode_uXXXX h1 h2 h3 h4) as [uni|]; [|discriminate].
  destruct (is_high_surrogate uni); [|solve_push IH].
  destruct r2 as [|b [|u [|g1 [|g2 [|g3 [|g4 r3]]]]]]; try solve_push IH.
  destruct ((b =? backslash) && (u =? chr "u")); [|solve_push IH].
  destruct (decode_uXXXX g1 g2 g3 g4) as [uni2|]; [|discriminate].
  destruct (is_low_surrogate uni2); solve_push IH.
Qed.

Lemma skip_ws_length s : (length (skip_ws s) ≤ length s)%nat.
Proof.
  induction s as [|c s IH]; [reflexivity|]. cbn [skip_ws].
  destruct (is_whitespace c); cbn [length]; lia.
Qed.

Lemma strip_prefix_length p s r :
  strip_prefix p s = Some r → (length r + length p = length s)%nat.
Proof.
  revert s. induction p as [|a p IH]; intros s H; cbn [strip_prefix] in H.
  - injection H as <-. cbn [length]. lia.
  - destruct s as [|c s]; [discriminate|]. destruct (a =? c); [|discriminate].
    apply IH in H. cbn [length]. lia.
Qed.

Lemma match_constant_length s v r :
  match_constant s = Some (v, r) → (length r < length s)%nat.
Proof.
  unfold match_constant. intros H.
  repeat match type of H with
  | match strip_prefix ?p s with _ => _ end = _ =>
      let E := fresh "E" in
      destruct (strip_prefix p s) eqn:E;
      [injection H as <- <-; apply strip_prefix_length in E; cbn [length str map list_ascii_of_string] in E; lia|]
  end. discriminate.
Qed.

Lemma take_digits_length s d r : take_digits s = (d, r) → (length r ≤ length s)%nat.
Proof.
  revert d r. induction s as [|c s IH]; intros d r H; cbn [take_digits] in H.
  - injection H as <- <-. reflexivity.
  - destruct (is_digit c).
    + destruct (take_digits s) as [d' r'] eqn:E. injection H as <- <-.
      specialize (IH _ _ eq_refl). cbn [length]. lia.
    + injection H as <- <-. reflexivity.
Qed.

Lemma match_number_length s v r :
  match_number s = Some (v, r) → (length r < length s)%nat.
Proof.
  unfold match_number. intros H.
  set (ns := match s with c :: r0 => if c =? chr "-" then (true, r0) else (false, s) | [] => (false, s) end) in H.
  assert (Hns : (length ns.2 ≤ length s)%nat).
  { subst ns. destruct s as [|c s']; [reflexivity|]. destruct (c =? chr "-"); cbn [snd length]; lia. }
  destruct ns as [neg s1]. cbn [snd] in Hns.
  destruct (match_integer s1) as [[int s2]|] eqn:Ei; [|discriminate].
  assert (H2 : (length s2 < length s1)%nat).
  { unfold match_integer in Ei. destruct s1 as [|c s1']; [discriminate|].
    destruct (c =? chr "0"). { injection Ei as <- <-. cbn [length]. lia. }
    destruct (is_digit c) eqn:Hd; [|discriminate].
    injection Ei as Ei. cbn [take_digits] in Ei. rewrite Hd in Ei.
    destruct (take_digits s1') as [d' r'] eqn:E. injection Ei as <- <-.
    apply take_digits_length in E. cbn [length]. lia. }
  assert (H3 : ∀ f s3, match_fraction s2 = Some (f, s3) → (length s3 ≤ length s2)%nat).
  { intros f s3. unfold match_fraction. destruct s2 as [|p0 [|d0 s2']]; try discriminate.
    destruct (_ && _); [|discriminate]. intros E. cbn [tail] in E.
    assert (E' : take_digits (d0 :: s2') = (f, s3)) by congruence.
    apply take_digits_length in E'. cbn [length] in *. lia. }
  assert (H4 : ∀ s3 e s4, match_exponent s3 = Some (e, s4) → (length s4 ≤ length s3)%nat).
  { intros s3 e s4. unfold match_exponent. destruct s3 as [|e0 r0]; [discriminate|].
    destruct (_ || _); [|discriminate].
    set (sg := match r0 with sg :: (_ :: _) as r' => _ | _ => (false, r0) end).
    assert (Hsg : (length sg.2 ≤ length r0)%nat).
    { subst sg. destruct r0 as [|a [|b0 r0']]; try reflexivity.
      destruct (a =? chr "-"); [cbn [snd length]; lia|].
      destruct (a =? chr "+"); cbn [snd length]; lia. }
    destruct sg as [ng r1]. cbn [snd] in Hsg.
    destruct (take_digits r1) as [[|d ds] rest] eqn:E; [discriminate|].
    intros [= _ <-]. apply take_digits_length in E. cbn [length]. lia. }
  destruct (match_fraction s2) as [[f s3]|] eqn:Ef.
  - specialize (H3 _ _ eq_refl).
    destruct (match_exponent s3) as [[e s4]|] eqn:Ee.
    + apply H4 in Ee. injection H as <- <-. lia.
    + injection H as <- <-. lia.
  - destruct (match_exponent s2) as [[e s4]|] eqn:Ee.
    + apply H4 in Ee. injection H as <- <-. lia.
    + injection H as <- <-. lia.
Qed.

Lemma of_option_shrinks o s :
  (∀ v r, o = Some (v, r) → (length r < length s)%nat) → shrinks (of_option o) s.
Proof. intros H. destruct o as [[v r]|]; cbn [of_option shrinks]; [by apply (H v r)|exact I]. Qed.

(** Every parser consumes input. *)
Lemma parsers_shrink n :
  (∀ s, shrinks (scan_once n s) s) ∧
  (∀ acc s, shrinks (parse_members n acc s) s) ∧
  (∀ acc s, shrinks (parse_elements n acc s) s).
Proof.
  induction n as [|n (IHs & IHm & IHe)]; [repeat split; intros; exact I|].
  repeat apply conj.
  - intros [|c r]; [exact I|]. cbn [scan_once].
    destruct (c =? quote).
    { destruct (scanstring r) as [[v rest]|] eqn:E; [|exact I].
      apply scanstring_length in E. cbn [shrinks length]. lia. }
    destruct (c =? chr "{").
    { pose proof (skip_ws_length r) as Hw.
      destruct (skip_ws r) as [|c' r']; [exact I|].
      destruct (c' =? chr "}"); [cbn [shrinks length] in *; lia|].
      specialize (IHm [] (c' :: r')).
      destruct (parse_members n [] (c' :: r')); cbn [shrinks length] in *; auto; lia. }
    destruct (c =? chr "[").
    { pose proof (skip_ws_length r) as Hw.
      destruct (skip_ws r) as [|c' r']; [exact I|].
      destruct (c' =? chr "]"); [cbn [shrinks length] in *; lia|].
      specialize (IHe [] (c' :: r')).
      destruct (parse_elements n [] (c' :: r')); cbn [shrinks length] in *; auto; lia. }
    destruct (match_constant (c :: r)) as [[v rest]|] eqn:E.
    { apply match_constant_length in E. exact E. }
    apply of_option_shrinks. intros v r0. apply match_number_length.
  - intros acc [|c r]; [exact I|]. cbn [parse_members].
    destruct (c =? quote); [|exact I].
    destruct (scanstring r) as [[key r1]|] eqn:E; [|exact I].
    apply scanstring_length in E.
    pose proof (skip_ws_length r1) as Hw1.
    destruct (skip_ws r1) as [|c1 r2]; [exact I|].
    destruct (c1 =? chr ":"); [|exact I].
    pose proof (skip_ws_length r2) as Hw2.
    specialize (IHs (skip_ws r2)).
    destruct (scan_once n (skip_ws r2)) as [| |v r3]; try exact I.
    pose proof (skip_ws_length r3) as Hw3.
    destruct (skip_ws r3) as [|c3 r4]; [exact I|].
    cbn [shrinks length] in *.
    destruct (c3 =? chr "}"); [cbn [shrinks length]; lia|].
    destruct (c3 =? chr ","); [|exact I].
    pose proof (skip_ws_length r4) as Hw4.
    specialize (IHm (dict_setitem acc key v) (skip_ws r4)).
    destruct (parse_members n _ (skip_ws r4)); cbn [shrinks length] in *; auto; lia.
  - intros acc s. cbn [parse_elements].
    specialize (IHs s).
    destruct (scan_once n s) as [| |v r1]; try exact I.
    pose proof (skip_ws_length r1) as Hw1.
    destruct (skip_ws r1) as [|c r2]; [exact I|].
    cbn [shrinks length] in *.
    destruct (c =? chr "]"); [cbn [shrinks length]; lia|].
    destruct (c =? chr ","); [|exact I].
    pose proof (skip_ws_length r2) as Hw2.
    specialize (IHe (acc ++ [v]) (skip_ws r2)).
    destruct (parse_elements n _ (skip_ws r2)); cbn [shrinks length] in *; auto; lia.
Qed.

(** Two units of fuel for each character are never used up. *)
Lemma parsers_have_fuel n :
  (∀ s, (2 * length s + 1 ≤ n)%nat → scan_once n s ≠ OutOfFuel) ∧
  (∀ acc s, (2 * length s + 1 ≤ n)%nat → parse_members n acc s ≠ OutOfFuel) ∧
  (∀ acc s, (2 * length s + 2 ≤ n)%nat → parse_elements n acc s ≠ OutOfFuel).
Proof.
  induction n as [|n (IHs & IHm & IHe)]; [repeat split; intros; lia|].
  destruct (parsers_shrink n) as (Ss & Sm & Se).
  repeat apply conj.
  - intros [|c r] Hn; [discriminate|]. cbn [scan_once]. cbn [length] in Hn.
    destruct (c =? quote). { destruct (scanstring r) as [[v rest]|]; discriminate. }
    destruct (c =? chr "{").
    { pose proof (skip_ws_length r) as Hw.
      destruct (skip_ws r) as [|c' r']; [discriminate|].
      destruct (c' =? chr "}"); [discriminate|].
      apply IHm. cbn [length] in *. lia. }
    destruct (c =? chr "[").
    { pose proof (skip_ws_length r) as Hw.
      destruct (skip_ws r) as [|c' r']; [discriminate|].
      destruct (c' =? chr "]"); [discriminate|].
      apply IHe. cbn [length] in *. lia. }
    destruct (match_constant (c :: r)) as [[v rest]|]; [discriminate|].
    destruct (match_number (c :: r)) as [[v rest]|]; discriminate.
  - intros acc [|c r] Hn; [discriminate|]. cbn [parse_members]. cbn [length] in Hn.
    destruct (c =? quote); [|discriminate].
    destruct (scanstring r) as [[key r1]|] eqn:E; [|discriminate].
    apply scanstring_length in E.
    pose proof (skip_ws_length r1) as Hw1.
    destruct (skip_ws r1) as [|c1 r2]; [discriminate|].
    destruct (c1 =? chr ":"); [|discriminate].
    pose proof (skip_ws_length r2) as Hw2.
    specialize (Ss (skip_ws r2)).
    specialize (IHs (skip_ws r2)).
    destruct (scan_once n (skip_ws r2)) as [| |v r3]; try discriminate.
    { apply IHs. cbn [length] in *. lia. }
    pose proof (skip_ws_length r3) as Hw3.
    destruct (skip_ws r3) as [|c3 r4]; [discriminate|].
    cbn [shrinks length] in *.
    destruct (c3 =? chr "}"); [discriminate|].
    destruct (c3 =? chr ","); [|discriminate].
    pose proof (skip_ws_length r4) as Hw4.
    apply IHm. lia.
  - intros acc s Hn. cbn [parse_elements].
    specialize (Ss s). specialize (IHs s).
    destruct (scan_once n s) as [| |v r1]; try discriminate.
    { apply IHs. lia. }
    pose proof (skip_ws_length r1) as Hw1.
    destruct (skip_ws r1) as [|c r2]; [discriminate|].
    cbn [shrinks length] in *.
    destruct (c =? chr "]"); [discriminate|].
    destruct (c =? chr ","); [|discriminate].
    pose proof (skip_ws_length r2) as Hw2.
    apply IHe. lia.
Qed.

(** [json_loads] refuses a text only because it is not JSON. *)
Lemma scan_once_has_fuel s : scan_once (fuel_for s) (skip_ws s) ≠ OutOfFuel.
Proof.
  apply parsers_have_fuel. unfold fuel_for. pose proof (skip_ws_length s). lia.
Qed.

End fuel.

(** ** Reading and writing the credential file *)

Section store.

(** [read_account] has no effect on the state. *)
Lemma read_account_world p w : (read_account p w).2 = w.
Proof.
  unfold read_account, open_r, json_load, file_read, getitem, len. unfold_M.
  destruct (has_nul p); [reflexivity|].
  destruct (fs w !! p) as [[| |[|s]]|]; try reflexivity.
  destruct (json_loads s) as [v|e]; [|destruct e; reflexivity].
  destruct v as [| | | | |l|d]; try reflexivity.
  destruct (dict_get d (str "token")) as [[|b|z|f|s'|l|d']|];
    try reflexivity; cbn.
  - destruct b; reflexivity.
  - destruct (negb (z =? 0)%Z); reflexivity.
  - destruct (negb (float_is_zero f)); reflexivity.
  - destruct (negb (bool_decide (s' = []))); [|reflexivity].
    destruct (negb _); reflexivity.
  - destruct l; reflexivity.
  - destruct d'; reflexivity.
Qed.

Lemma read_account_run p w : read_account p w = ((read_account p w).1, w).
Proof. rewrite <- (read_account_world p w) at 3. by destruct (read_account p w). Qed.

(** A file that holds a token reads as that token, the empty token as none. *)
Lemma read_account_file_holds w p T :
  file_holds w p T →
  read_account p w = (Ret (if bool_decide (T = []) then VNone else VStr T), w).
Proof.
  intros (Hnul & text & d & Hfs & Hjs & Hd).
  unfold read_account, open_r, json_load, file_read, getitem, len. unfold_M.
  rewrite Hnul, Hfs, Hjs, Hd. cbn.
  destruct T; reflexivity.
Qed.

(** In each state without a token, [read_account] returns [None]. *)
Lemma read_account_no_token w p : no_token w p → read_account p w = (Ret VNone, w).
Proof.
  intros H. unfold read_account, open_r, json_load, file_read, getitem, len.
  unfold_M. destruct (has_nul p); [reflexivity|].
  destruct H as [H|H|H|H|s e H Hj|s d H Hj Hd|s d H Hj Hd]; rewrite H;
    try reflexivity.
  - rewrite Hj. apply json_loads_raises in Hj as ->. reflexivity.
  - rewrite Hj, Hd. reflexivity.
  - rewrite Hj, Hd. reflexivity.
Qed.

(** [save_account] on a path that can be written. *)
Lemma save_account_ok T p w :
  can_save w p = true → save_account T p w = (Ret tt, saved w p T).
Proof.
  unfold can_save. rewrite !andb_true_iff, !negb_true_iff, !bool_decide_eq_false.
  intros [[[[[Hn1 Hn2] Hd] Hdir] Hne] Hp].
  unfold save_account, makedirs, open_w, json_dump, file_write, saved,
    parent_exists, credential_text.
  unfold_M. rewrite Hn1, Hn2. rewrite bool_decide_eq_false_2 by assumption.
  assert (Hfs1 : ∃ f1,
    (match fs w !! dirname p with
     | None => (Ret (), World (environ w) (<[dirname p := Dir]> (fs w)) (warnings w))
     | Some Dir => (Ret (), w)
     | Some _ => (Raise FileExistsError, w)
     end) = (Ret tt, World (environ w) f1 (warnings w))
    ∧ f1 = <[dirname p := Dir]> (fs w)).
  { destruct (fs w !! dirname p) as [[| |]|] eqn:E; try discriminate.
    - exists (fs w). split; [destruct w; reflexivity|]. symmetry. by apply insert_id.
    - eexists; split; reflexivity. }
  destruct Hfs1 as (f1 & -> & ->). cbn [fs environ warnings].
  destruct (dirname p) as [|c d] eqn:Ed; [done|].
  rewrite lookup_insert_eq. rewrite lookup_insert_ne by congruence.
  destruct (fs w !! p) as [[| |c']|] eqn:Ep; try discriminate;
    cbn [fs environ warnings]; rewrite lookup_insert_eq, insert_insert_eq;
    reflexivity.
Qed.

(** [save_account] returns only on such a path. *)
Lemma save_account_inv T p w w' :
  save_account T p w = (Ret tt, w') → can_save w p = true ∧ w' = saved w p T.
Proof.
  intros H. destruct (can_save w p) eqn:E.
  - rewrite save_account_ok in H by assumption. split; congruence.
  - exfalso. revert H. unfold can_save in E.
    unfold save_account, makedirs, open_w, json_dump, file_write, parent_exists.
    unfold_M.
    destruct (has_nul (dirname p)); [discriminate|].
    destruct (bool_decide (dirname p = [])) eqn:Hd; [discriminate|].
    apply bool_decide_eq_false in Hd.
    destruct (has_nul p).
    { destruct (fs w !! dirname p) as [[| |]|]; cbn; discriminate. }
    cbn in E.
    destruct (fs w !! dirname p) as [[| |]|] eqn:Edir;
      cbn -[json_dumps_indent2]; try discriminate; cbn in E;
      destruct (dirname p) as [|c d] eqn:Ed; try done;
      destruct (bool_decide (p = c :: d)) eqn:Hpd; cbn in E.
    + apply bool_decide_eq_true in Hpd; subst p.
      rewrite !Edir. cbn -[json_dumps_indent2]. discriminate.
    + rewrite Edir.
      destruct (fs w !! p) as [[| |]|]; cbn -[json_dumps_indent2]; discriminate.
    + apply bool_decide_eq_true in Hpd; subst p.
      rewrite !lookup_insert_eq. cbn -[json_dumps_indent2]. discriminate.
    + apply bool_decide_eq_false in Hpd.
      rewrite lookup_insert_eq, lookup_insert_ne by congruence.
      destruct (fs w !! p) as [[| |]|]; cbn -[json_dumps_indent2]; discriminate.
Qed.

Lemma save_account_returns_iff T p w :
  (∃ w', save_account T p w = (Ret tt, w')) ↔ can_save w p = true.
Proof.
  split.
  - intros [w' H]. by apply save_account_inv in H as [? _].
  - intros H. eexists. by apply save_account_ok.
Qed.

(** A file name without a directory part: [os.makedirs('')] raises, and the
    failure reaches the caller. *)
Example save_account_bare_filename T w :
  save_account T (str "qirc") w = (Raise FileNotFoundError, w).
Proof. reflexivity. Qed.


Lemma dict_get_token v : dict_get [(str "token", v)] (str "token") = Some v.
Proof. reflexivity. Qed.

(** After [save_account] the file holds the token. *)
Lemma file_holds_saved w p T :
  can_save w p = true → is_text T → file_holds (saved w p T) p T.
Proof.
  intros Hc HT. split.
  - unfold can_save in Hc. rewrite !andb_true_iff, !negb_true_iff in Hc. tauto.
  - exists (credential_text T), [(str "token", VStr T)]. split; [|split].
    + unfold saved. cbn [fs]. apply lookup_insert_eq.
    + by apply json_loads_credential_text.
    + apply dict_get_token.
Qed.

(** A path that was written can be written again. *)
Lemma can_save_saved w p T : can_save w p = true → can_save (saved w p T) p = true.
Proof.
  unfold can_save, saved. cbn [fs].
  rewrite !andb_true_iff, !negb_true_iff, !bool_decide_eq_false.
  intros [[[[[Hn1 Hn2] Hd] Hdir] Hne] Hp]. repeat split; try assumption.
  - rewrite lookup_insert_ne by assumption. by rewrite lookup_insert_eq.
  - by rewrite lookup_insert_eq.
Qed.

Lemma read_account_saved w p T :
  can_save w p = true → is_text T →
  read_account p (saved w p T) =
  (Ret (if bool_decide (T = []) then VNone else VStr T), saved w p T).
Proof. intros Hc HT. apply read_account_file_holds. by apply file_holds_saved. Qed.


Lemma delete_account_mismatch T p w v :
  read_account p w = (Ret v, w) → v ≠ VStr T →
  delete_account T p w = (Ret tt, w).
Proof.
  intros H Hv. unfold delete_account. unfold_M. rewrite H.
  destruct v; try reflexivity. cbn [eq_str]. unfold pystr_eqb.
  rewrite bool_decide_eq_false_2; [reflexivity|congruence].
Qed.


(** The session tier: without a non-empty [QI_TOKEN], [load_account] is
    [read_account]. *)
Lemma load_account_falls_back p w :
  environ w !! str "QI_TOKEN" = None ∨ environ w !! str "QI_TOKEN" = Some [] →
  load_account p w = read_account p w.
Proof.
  intros [H|H]; unfold load_account, environ_get; unfold_M; rewrite H; reflexivity.
Qed.


Lemma enable_account_ok T w :
  can_enable T = true →
  enable_account T w
  = (Ret tt, World (<[str "QI_TOKEN" := T]> (environ w)) (fs w) (warnings w)).
Proof.
  unfold can_enable, enable_account, environ_setitem.
  rewrite andb_true_iff, !negb_true_iff. intros [-> ->]. reflexivity.
Qed.


End store.

(** ** The credential store *)






(** C3. Overwrite protection: when the file holds a non-empty token [T1]
    and [T2] is another token, [store_account T2 p] without [overwrite]
    returns normally, leaves the file system as it is, so that the file
    still holds [T1], and emits the warning. *)
Theorem store_account_overwrite_protection (T1 T2 p : pystr) (w : world) :
  T1 ≠ T2 → T1 ≠ [] → file_holds w p T1 →
  store_account T2 p false w = (Ret tt, warned w) ∧
  fs (warned w) = fs w ∧ file_holds (warned w) p T1 ∧
  warnings (warned w) = warnings w ++ [token_warning].
Proof.
  intros Hne HT1 Hh. split; [|repeat split; apply Hh].
  unfold store_account. unfold_M.
  rewrite (read_account_file_holds w p T1 Hh), bool_decide_eq_false_2 by assumption.
  cbn [truthy eq_str]. unfold pystr_eqb.
  rewrite !bool_decide_eq_false_2 by assumption. reflexivity.
Qed.

Lemma store_account_overwrite_protection_witness :
  let w := saved fresh qirc (str "abc123") in
  store_account (str "xyz") qirc false w = (Ret tt, warned w).
Proof.
  intros w.
  refine (proj1 (store_account_overwrite_protection
                   (str "abc123") (str "xyz") qirc w _ _ _)).
  - discriminate.
  - discriminate.
  - apply file_holds_saved; [reflexivity|]. apply is_textb_sound. reflexivity.
Defined.

(** C4, at a failing input. A file whose content is the JSON array [[]] is
    valid JSON without a token field; [read_account] raises [TypeError],
    which its [except] clause does not catch. *)
Theorem read_account_raises_on_json_array :
  json_loads (str "[]") = Ret (VList []) ∧
  read_account qirc array_file = (Raise TypeError, array_file).
Proof. split; vm_compute; reflexivity. Qed.







(** C8. [get_token_authentication] without a token takes the token from
    [load_account] on the default file, and raises what [load_account]
    raises; a non-empty token is taken as given, whatever it contains,
    and the state is untouched. Every descriptor returned has the scheme
    ["token"] and carries the token so resolved. *)
Theorem get_token_authentication_resolves (home : pystr) (w : world) :
  (∀ t w', load_account (DEFAULT_QIRC_FILE home) w = (Ret t, w') →
     get_token_authentication home VNone w =
     (Ret (mkTokenAuthentication t (str "token")), w')) ∧
  (∀ e w', load_account (DEFAULT_QIRC_FILE home) w = (Raise e, w') →
     get_token_authentication home VNone w = (Raise e, w')) ∧
  (∀ t, t ≠ [] →
     get_token_authentication home (VStr t) w =
     (Ret (mkTokenAuthentication (VStr t) (str "token")), w)) ∧
  (∀ tok d w', get_token_authentication home tok w = (Ret d, w') →
     auth_scheme d = str "token" ∧
     (truthy tok = true → auth_token d = tok ∧ w' = w) ∧
     (truthy tok = false →
      load_account (DEFAULT_QIRC_FILE home) w = (Ret (auth_token d), w'))).
Proof.
  unfold get_token_authentication. unfold_M. repeat apply conj.
  - intros t w' H. cbn [truthy negb]. by rewrite H.
  - intros e w' H. cbn [truthy negb]. by rewrite H.
  - intros t Ht. cbn [truthy]. by rewrite bool_decide_eq_false_2.
  - intros tok d w' H. destruct (truthy tok); cbn [negb] in H.
    + injection H as <- <-. repeat apply conj; [reflexivity|done|discriminate].
    + destruct (load_account _ w) as [[t|e] w0]; [|discriminate].
      injection H as <- <-. repeat apply conj; [reflexivity|discriminate|done].
Qed.

(** C9. With [QI_TOKEN] set to the empty string, [load_account] does not
    return the empty string: it is [read_account] on the file. *)
Theorem load_account_empty_override (p : pystr) (w : world) :
  environ w !! str "QI_TOKEN" = Some [] →
  load_account p w = read_account p w.
Proof. intros H. apply load_account_falls_back. by right. Qed.

Lemma load_account_empty_override_witness :
  let w := World {[ str "QI_TOKEN" := [] ]}
                 (fs (saved fresh qirc (str "abc123"))) [] in
  load_account qirc w = read_account qirc w ∧
  read_account qirc w = (Ret (VStr (str "abc123")), w).
Proof.
  intros w. split.
  - apply (load_account_empty_override qirc w). reflexivity.
  - vm_compute. reflexivity.
Defined.



(** ** Further properties of the module *)




Lemma load_account_world p w : (load_account p w).2 = w.
Proof.
  unfold load_account, environ_get. unfold_M.
  destruct (environ w !! str "QI_TOKEN") as [t|]; [|apply read_account_world].
  destruct (truthy (VStr t)); [reflexivity|apply read_account_world].
Qed.

(** X1. [read_account] and [load_account] only read: whatever they return or
    raise, the environment, the file system and the warnings are as before. *)
Theorem read_and_load_leave_state (p : pystr) (w : world) :
  (read_account p w).2 = w ∧ (load_account p w).2 = w.
Proof. split; [apply read_account_world|apply load_account_world]. Qed.


(** X3. On a JSON object with a [token] field, [read_account] looks at the
    value alone: a false value ([null], [false], zero, an empty string, list
    or dict) gives [None]; a non-empty string, list or dict is returned as it
    is, whatever its type; [true] or a non-zero number raises [TypeError]
    from [len]. *)
Theorem read_account_token_field (p s : pystr) (d : list (pystr * pyval))
    (v : pyval) (w : world) :
  has_nul p = false →
  fs w !! p = Some (File (Decoded s)) →
  json_loads s = Ret (VDict d) →
  dict_get d (str "token") = Some v →
  read_account p w =
  (if negb (truthy v) then Ret VNone
   else if sized v then Ret v else Raise TypeError, w).
Proof.
  intros Hn Hf Hj Hd.
  unfold read_account, open_r, json_load, file_read, getitem, len. unfold_M.
  rewrite Hn, Hf, Hj, Hd. cbn.
  destruct v as [|b|z|f|s'|l|d']; cbn; try reflexivity.
  - destruct b; reflexivity.
  - destruct (negb (z =? 0)%Z); reflexivity.
  - destruct (negb (float_is_zero f)); reflexivity.
  - destruct s'; reflexivity.
  - destruct l; reflexivity.
  - destruct d'; reflexivity.
Qed.


Lemma read_account_token_field_witness :
  read_account qirc list_token_file = (Ret (VList [VInt 1]), list_token_file).
Proof.
  refine (read_account_token_field qirc _ [(str "token", VList [VInt 1])]
            (VList [VInt 1]) list_token_file _ _ _ _); reflexivity.
Defined.

(** X4. In a state without a token (no file, a file that cannot be opened or
    decoded, a text that is not JSON, an object without token or with the
    empty token) [store_account] is [save_account] whatever [overwrite] is,
    and [delete_account] does nothing. *)
Theorem no_token_store_and_delete (T p : pystr) (ow : bool) (w : world) :
  no_token w p →
  read_account p w = (Ret VNone, w) ∧
  store_account T p ow w = save_account T p w ∧
  delete_account T p w = (Ret tt, w).
Proof.
  intros H. pose proof (read_account_no_token w p H) as Hr.
  repeat apply conj; [exact Hr| |].
  - unfold store_account. unfold_M. rewrite Hr. reflexivity.
  - unfold delete_account. unfold_M. rewrite Hr. reflexivity.
Qed.

Lemma no_token_store_and_delete_witness :
  store_account (str "abc123") qirc false fresh
  = save_account (str "abc123") qirc fresh ∧
  delete_account (str "abc123") qirc fresh = (Ret tt, fresh).
Proof.
  refine (proj2 (no_token_store_and_delete (str "abc123") qirc false fresh _)).
  apply nt_missing. reflexivity.
Defined.





(** X8. [delete_account] is idempotent: after it has returned, the same call
    again returns and changes nothing; when it removed the token, none is
    read afterwards. *)
Theorem delete_account_idempotent (T p : pystr) (w w1 : world) :
  delete_account T p w = (Ret tt, w1) →
  delete_account T p w1 = (Ret tt, w1) ∧
  (read_account p w = (Ret (VStr T), w) → read_account p w1 = (Ret VNone, w1)).
Proof.
  intros Hd. revert Hd. unfold delete_account at 1. unfold_M.
  rewrite (read_account_run p w).
  destruct (read_account p w).1 as [v|e] eqn:Hv; [|discriminate].
  destruct (eq_str v T) eqn:He.
  - intros Hs. apply save_account_inv in Hs as [Hc ->].
    assert (Hnil : is_text []) by constructor. pose proof (read_account_saved w p [] Hc Hnil) as Hr.
    rewrite bool_decide_eq_true_2 in Hr by reflexivity.
    split; [|by intros _].
    eapply delete_account_mismatch; [exact Hr|discriminate].
  - intros [= <-]. split.
    + unfold delete_account. unfold_M. rewrite (read_account_run p w), Hv, He.
      reflexivity.
    + rewrite (read_account_run p w), Hv. intros [= ->].
      cbn in He. unfold pystr_eqb in He.
      by rewrite bool_decide_eq_true_2 in He.
Qed.

Lemma delete_account_idempotent_witness :
  let w := saved fresh qirc (str "abc123") in
  let w1 := saved w qirc [] in
  delete_account (str "abc123") qirc w = (Ret tt, w1) ∧
  delete_account (str "abc123") qirc w1 = (Ret tt, w1).
Proof.
  intros w w1.
  assert (H : delete_account (str "abc123") qirc w = (Ret tt, w1))
    by (vm_compute; reflexivity).
  split; [exact H|].
  exact (proj1 (delete_account_idempotent (str "abc123") qirc w w1 H)).
Defined.


Lemma can_save_distinct w p : can_save w p = true → p ≠ dirname p.
Proof.
  unfold can_save. rewrite !andb_true_iff, !negb_true_iff, !bool_decide_eq_false.
  tauto.
Qed.

Lemma saved_saved w p T1 T2 :
  p ≠ dirname p → saved (saved w p T1) p T2 = saved w p T2.
Proof.
  intros Hne. unfold saved. cbn [fs environ warnings]. f_equal.
  rewrite (insert_insert_ne _ (dirname p) p) by congruence.
  by rewrite !insert_insert_eq.
Qed.

(** X9. The last writer wins: [save_account T2 p] after [save_account T1 p]
    returns, and leaves the state [save_account T2 p] alone would have
    left. *)
Theorem save_account_last_writer_wins (T1 T2 p : pystr) (w w1 : world) :
  save_account T1 p w = (Ret tt, w1) →
  save_account T2 p w1 = save_account T2 p w ∧
  save_account T2 p w1 = (Ret tt, saved w p T2).
Proof.
  intros Hs. apply save_account_inv in Hs as [Hc ->].
  rewrite (save_account_ok T2 p (saved w p T1)) by (by apply can_save_saved).
  rewrite (save_account_ok T2 p w) by assumption.
  rewrite saved_saved by (by apply (can_save_distinct w)). done.
Qed.

Lemma save_account_last_writer_wins_witness :
  save_account (str "xyz") qirc (saved fresh qirc (str "abc123"))
  = (Ret tt, saved fresh qirc (str "xyz")).
Proof.
  refine (proj2 (save_account_last_writer_wins (str "abc123") (str "xyz") qirc
                   fresh _ _)).
  vm_compute. reflexivity.
Defined.







(** The default resource file and its directory. *)
Lemma upto_last_sep_app a b :
  upto_last_sep b = None → upto_last_sep (a ++ sep :: b) = Some (a ++ [sep]).
Proof.
  intros Hb. induction a as [|c a IH]; cbn [app upto_last_sep].
  - rewrite Hb. reflexivity.
  - rewrite IH. reflexivity.
Qed.

Lemma rstrip_sep_snoc a c : (c =? sep) = false → rstrip_sep (a ++ [c]) = a ++ [c].
Proof.
  intros Hc. induction a as [|x a IH]; cbn [app rstrip_sep].
  - rewrite Hc. reflexivity.
  - rewrite IH. destruct (a ++ [c]) eqn:E; [by destruct a|reflexivity].
Qed.

Lemma rstrip_sep_app_sep a c :
  (c =? sep) = false → rstrip_sep ((a ++ [c]) ++ [sep]) = a ++ [c].
Proof.
  intros Hc. induction a as [|x a IH]; cbn [app rstrip_sep].
  - rewrite Hc. reflexivity.
  - rewrite IH. destruct (a ++ [c]) eqn:E; [by destruct a|reflexivity].
Qed.


Lemma config_dir_shape home :
  ∃ a, config_dir home = (a ++ str ".quantuminspir") ++ [chr "e"] ∧
       (a = home ∨ a = home ++ [sep]).
Proof.
  unfold config_dir, join2. change (startswith_sep (str ".quantuminspire")) with false.
  cbv iota. destruct (bool_decide (home = []) || endswith_sep home).
  - exists home. split; [|by left].
    change (str ".quantuminspire") with (str ".quantuminspir" ++ [chr "e"]).
    by rewrite app_assoc.
  - exists (home ++ [sep]). split; [|by right].
    change (sep :: str ".quantuminspire") with ([sep] ++ str ".quantuminspir" ++ [chr "e"]).
    by rewrite !app_assoc.
Qed.

Lemma default_file_eq home :
  DEFAULT_QIRC_FILE home = config_dir home ++ sep :: str "qirc".
Proof.
  unfold DEFAULT_QIRC_FILE, path_join. cbn [fold_left]. fold (config_dir home).
  destruct (config_dir_shape home) as (a & Ha & _). rewrite Ha.
  unfold join2. change (startswith_sep (str "qirc")) with false. cbv iota.
  replace (bool_decide ((a ++ str ".quantuminspir") ++ [chr "e"] = [])) with false.
  2: { symmetry. apply bool_decide_eq_false. by destruct (a ++ str ".quantuminspir"). }
  unfold endswith_sep. rewrite last_snoc. reflexivity.
Qed.

Lemma dirname_default_file home :
  dirname (DEFAULT_QIRC_FILE home) = config_dir home.
Proof.
  rewrite default_file_eq. unfold dirname.
  rewrite upto_last_sep_app by reflexivity. cbn [default].
  destruct (config_dir_shape home) as (a & Ha & _). rewrite Ha.
  replace (bool_decide (((a ++ str ".quantuminspir") ++ [chr "e"]) ++ [sep] = [])) with false.
  2: { symmetry. apply bool_decide_eq_false.
       by destruct ((a ++ str ".quantuminspir") ++ [chr "e"]). }
  unfold id. rewrite !forallb_app. change (forallb (N.eqb sep) [chr "e"]) with false.
  rewrite andb_false_r. cbn [negb andb].
  apply rstrip_sep_app_sep. reflexivity.
Qed.

Lemma has_nul_app a b : has_nul (a ++ b) = has_nul a || has_nul b.
Proof. apply existsb_app. Qed.

Lemma has_nul_config_dir home : has_nul home = false → has_nul (config_dir home) = false.
Proof.
  intros H. destruct (config_dir_shape home) as (a & -> & [->| ->]);
    rewrite !has_nul_app, ?H; reflexivity.
Qed.

(** X12. The default resource file always has a directory part,
    [home/.quantuminspire], so on an empty file system [save_account] on it
    returns, whatever the home directory is. *)
Theorem default_file_first_save (home T : pystr) (e : gmap pystr pystr)
    (ws : list pystr) :
  has_nul home = false →
  dirname (DEFAULT_QIRC_FILE home) = config_dir home ∧
  config_dir home ≠ [] ∧
  save_account T (DEFAULT_QIRC_FILE home) (World e ∅ ws)
  = (Ret tt, saved (World e ∅ ws) (DEFAULT_QIRC_FILE home) T).
Proof.
  intros Hn. pose proof (dirname_default_file home) as Hd.
  assert (Hne : config_dir home ≠ []).
  { destruct (config_dir_shape home) as (a & -> & _).
    by destruct (a ++ str ".quantuminspir"). }
  repeat apply conj; [exact Hd|exact Hne|].
  apply save_account_ok. unfold can_save. rewrite Hd. cbn [fs].
  rewrite !lookup_empty, has_nul_config_dir by assumption.
  rewrite default_file_eq, has_nul_app, has_nul_config_dir by assumption.
  rewrite bool_decide_eq_false_2 by assumption.
  rewrite bool_decide_eq_false_2; [reflexivity|].
  intros H. apply (f_equal length) in H. rewrite length_app in H. cbn in H. lia.
Qed.

Lemma default_file_first_save_witness :
  dirname (DEFAULT_QIRC_FILE (str "/home/user")) = str "/home/user/.quantuminspire" ∧
  save_account (str "abc123") (DEFAULT_QIRC_FILE (str "/home/user")) fresh
  = (Ret tt, saved fresh qirc (str "abc123")).
Proof.
  destruct (default_file_first_save (str "/home/user") (str "abc123") ∅ [] eq_refl)
    as (H1 & _ & H2).
  split; [exact H1|exact H2].
Defined.



(** Every character [json.dump] writes is ASCII. *)

Lemma hexdigit_printable d : printable (hexdigit (d mod 16)).
Proof.
  right. assert (d mod 16 < 16) by (apply N.mod_upper_bound; lia).
  unfold hexdigit. destruct (d mod 16 <? 10) eqn:E.
  - apply N.ltb_lt in E. change (chr "0") with 48. lia.
  - apply N.ltb_ge in E. change (chr "a") with 97. lia.
Qed.

Lemma hex4_printable n : Forall printable (hex4 n).
Proof.
  unfold hex4. repeat (apply Forall_cons; split; [apply hexdigit_printable|]).
  apply Forall_nil_2.
Qed.

Lemma str_printable_u n : Forall printable (backslash :: chr "u" :: hex4 n).
Proof.
  apply Forall_cons; split; [right; change backslash with 92; lia|].
  apply Forall_cons; split; [right; change (chr "u") with 117; lia|].
  apply hex4_printable.
Qed.

Lemma escape_char_printable c : Forall printable (escape_char c).
Proof.
  unfold escape_char.
  destruct ((chr " " <=? c) && (c <=? chr "~") && negb (c =? backslash)
            && negb (c =? quote)) eqn:Hplain.
  { apply andb_prop in Hplain as [Hplain _]. apply andb_prop in Hplain as [Hplain _].
    apply andb_prop in Hplain as [H1 H2]. apply N.leb_le in H1, H2.
    apply Forall_cons; split; [|apply Forall_nil_2]. right.
    change (chr " ") with 32 in H1. change (chr "~") with 126 in H2. lia. }
  repeat match goal with
  | |- context [if ?b then _ else _] => destruct b
  end;
  try (apply Forall_cons; split; [right; vm_compute; split; discriminate|];
       apply Forall_cons; split; [right; vm_compute; split; discriminate|];
       apply Forall_nil_2).
  - apply str_printable_u.
  - cbv zeta. apply Forall_app_2; apply str_printable_u.
Qed.


Lemma printableb_sound l : forallb printableb l = true → Forall printable l.
Proof.
  rewrite forallb_forall, Forall_forall. intros H c Hc.
  apply list_elem_of_In, H in Hc. unfold printableb in Hc.
  apply orb_true_iff in Hc as [Hc|Hc].
  - left. by apply N.eqb_eq.
  - right. apply andb_true_iff in Hc as [H1 H2]. split; by apply N.leb_le.
Qed.

Lemma credential_text_printable T : Forall printable (credential_text T).
Proof.
  rewrite credential_text_eq.
  apply Forall_app_2; [apply printableb_sound; reflexivity|].
  apply Forall_app_2; [|apply printableb_sound; reflexivity].
  unfold escape_chars. rewrite Forall_concat, Forall_forall.
  intros l Hl. apply list_elem_of_fmap in Hl as (c & -> & _).
  apply escape_char_printable.
Qed.

(** X14. The file [save_account] writes is plain ASCII, whatever the token:
    printable characters and line feeds only. *)
Theorem save_account_writes_ascii (T p : pystr) (w w' : world) :
  save_account T p w = (Ret tt, w') →
  ∃ s, fs w' !! p = Some (File (Decoded s)) ∧ Forall printable s.
Proof.
  intros H. apply save_account_inv in H as [_ ->].
  exists (credential_text T). split.
  - unfold saved. cbn [fs]. apply lookup_insert_eq.
  - apply credential_text_printable.
Qed.


Lemma save_account_writes_ascii_witness :
  ∃ s, fs (saved fresh qirc [233; 0x1F600]) !! qirc = Some (File (Decoded s)) ∧
       Forall printable s.
Proof.
  refine (save_account_writes_ascii [233; 0x1F600] qirc fresh _ _).
  vm_compute. reflexivity.
Defined.




